(** * The product listing page of [src/app/page.tsx]

    A shallow embedding of the server component [Home] and of its helper
    [getProducts]:

    - strings and numbers as the page uses them (string comparison, the
      string conversion of numbers, [toFixed]);
    - the pure reading of the two derivations, [categories] and [schema],
      and of the dynamic parts of the markup;
    - the catalogue fetch as a computation over the outside world
      (upstream server, data cache, network log) that may throw;
    - the same derivations as programs over a store of mutable arrays, to
      settle what they mutate. *)

From Stdlib Require Import ZArith QArith Qround Qabs Lqa Ascii DecimalString DecimalZ.
From stdpp Require Import base tactics option list sorting strings gmap.

Local Open Scope Z_scope.

(** ** Strings *)

(** A JavaScript string is a sequence of code units; [string] is used for
    it, a character standing for one code unit and [code] for its value. *)
Definition code (c : ascii) : N := N_of_ascii c.

(** The comparison [px < py] of two strings: a proper prefix is smaller,
    otherwise the first position where the strings differ decides, by the
    value of the code unit. *)
Fixpoint IsLessThan (px py : string) : bool :=
  match px, py with
  | _, EmptyString => false
  | EmptyString, String _ _ => true
  | String m px', String n py' =>
      if (code m <? code n)%N then true
      else if (code n <? code m)%N then false
      else IsLessThan px' py'
  end.

(** The comparator [Array.prototype.sort] uses when it is given none. Its
    arguments are strings here, so no conversion takes place. *)
Definition SortCompare (x y : string) : Z :=
  if IsLessThan x y then -1
  else if IsLessThan y x then 1
  else 0.

(** [x] may stand before [y] in a sorted array. *)
Definition sorts_before (x y : string) : Prop := SortCompare x y <= 0.

#[global] Instance sorts_before_dec : RelDecision sorts_before.
Proof. intros x y. unfold sorts_before. apply Z_le_dec. Defined.

(** [x] stands strictly before [y]. *)
Definition strictly_before (x y : string) : Prop := IsLessThan x y = true.

(** [Array.prototype.sort()] on an array of strings. The standard leaves
    the algorithm open and fixes the result: a permutation of the array in
    the order of the comparator. [Array_sort_unique] below shows that for
    strings this determines the result, so that any algorithm serves as the
    model; a merge sort is used. *)
Definition Array_sort (a : list string) : list string :=
  merge_sort sorts_before a.

(** ** Sets of strings *)

(** A [Set] keeps its elements in insertion order. [add] appends a value
    that is not yet present and leaves the set alone otherwise. *)
Definition Set_add (s : list string) (v : string) : list string :=
  if decide (v ∈ s) then s else s ++ [v].

(** [new Set(iterable)]: the values are added one by one, in order. *)
Definition Set_new (iterable : list string) : list string :=
  foldl Set_add [] iterable.

(** [Array.from(set)]: the elements in insertion order. *)
Definition Array_from (s : list string) : list string := s.

(** ** Numbers *)

(** A number of the page is a double. A number field of a product is given
    here by the value of its numeral in the body, an integer for an id and
    a rational for a price; [JSON.parse] turns the numeral into the nearest
    double, and every operation of the page works on that double. *)

(** The decimal numeral of an integer, with a minus sign for a negative
    one. *)
Definition digits (n : Z) : string := NilZero.string_of_int (Z.to_int n).

(** Reading of a decimal numeral, the inverse of [digits]. *)
Definition parseDecimal (s : string) : option Z :=
  Z.of_int <$> NilZero.int_of_string s.

(** The largest integer [n] such that [n] and [n + 1] are both doubles. *)
Definition MAX_SAFE_INTEGER : Z := 2 ^ 53 - 1.

(** The Number value of an integer: the nearest double, the one with the
    even significand when two are equally near. It is an integer again.
    There is none when the integer rounds to [2^1024] or beyond; the
    number is then an infinity. *)
Definition NumberValue (n : Z) : option Z :=
  let a := Z.abs n in
  let shift := Z.max 0 (Z.log2 a + 1 - 53) in
  let q := a / 2 ^ shift in
  let r := a mod 2 ^ shift in
  let q' := if 2 * r <? 2 ^ shift then q
            else if 2 ^ shift <? 2 * r then q + 1
            else if Z.even q then q else q + 1 in
  let x := q' * 2 ^ shift in
  if 2 ^ 1024 <=? x then None else Some (Z.sgn n * x).

(** The integer [y] is read as the double [x]. *)
Definition rounds_to (y x : Z) : bool :=
  match NumberValue y with
  | Some x' => x' =? x
  | None => false
  end.

(** The integer with the fewest significant digits that is read as the
    double [x > 0], the nearest to [x] when there are two: the multiples
    of [10^j] next to [x] are tried from the largest [j] down; for [j = 0]
    it is [x] itself. *)
Fixpoint shortest_from (j : nat) (x : Z) : Z :=
  match j with
  | O => x
  | S j' =>
      let p := 10 ^ Z.of_nat j in
      let lo := x / p * p in
      let hi := lo + p in
      match rounds_to lo x, rounds_to hi x with
      | true, true => if x - lo <=? hi - x then lo else hi
      | true, false => lo
      | false, true => hi
      | false, false => shortest_from j' x
      end
  end.

(** No power of ten above [10 ^ (log2 x / 3 + 1)] is read as [x]. *)
Definition shortest (x : Z) : Z :=
  shortest_from (Z.to_nat (Z.log2 x / 3 + 1)) x.

(** A numeral without its zeros at the end. *)
Fixpoint stripZeros (s : string) : string :=
  match s with
  | EmptyString => EmptyString
  | String c s' =>
      match c, stripZeros s' with
      | "0"%char, EmptyString => EmptyString
      | _, t => String c t
      end
  end.

(** An integer of [n > 21] digits in exponent form: the first digit, a
    point and the other digits up to the last that is not zero, if there
    are any, then [e+] and [n - 1]. *)
Definition exponentForm (y : Z) : string :=
  let d := digits y in
  let e := digits (Z.of_nat (String.length d) - 1) in
  match stripZeros d with
  | EmptyString => "0"
  | String c EmptyString => String c ("e+" +:+ e)
  | String c r => String c ("." +:+ r +:+ "e+" +:+ e)
  end.

(** The string of an integer-valued double [x > 0]. *)
Definition ToString_positive (x : Z) : string :=
  let y := shortest x in
  if y <? 10 ^ 21 then digits y else exponentForm y.

(** The conversion to a string of the number that the integer [n] is read
    as: of an id in a template literal, and of a length or a position. *)
Definition Number_toString (n : Z) : string :=
  match NumberValue n with
  | None => if n <? 0 then "-Infinity" else "Infinity"
  | Some x =>
      if x <? 0 then "-" +:+ ToString_positive (- x)
      else if x =? 0 then "0"
      else ToString_positive x
  end.

Definition zeros (k : nat) : string :=
  String.concat EmptyString (replicate k "0").

(** Quotient, remainder and divisor of [(a / b) / 2^e] in integers. *)
Definition scaled (a b e : Z) : Z * Z * Z :=
  let num := if 0 <=? e then a else a * 2 ^ (- e) in
  let den := if 0 <=? e then b * 2 ^ e else b in
  (num / den, num mod den, den).

(** The Number value of a rational: the nearest double [m * 2^e], with
    [2^52 <= m < 2^53] before rounding or [e = -1074], the one with even
    [m] when two are equally near; none when it rounds to [2^1024] or
    beyond. A negative rational that rounds to zero gives zero: the sign
    of a zero shows in no text of the page. *)
Definition NumberValueQ (x : Q) : option Q :=
  let a := Z.abs (Qnum x) in
  let b := Z.pos (Qden x) in
  if a =? 0 then Some 0%Q
  else
    let e0 := Z.log2 a - Z.log2 b - 53 in
    let e1 := if (scaled a b e0).1.1 <? 2 ^ 53 then e0 else e0 + 1 in
    let e := Z.max e1 (-1074) in
    let '(q, r, den) := scaled a b e in
    let m := if 2 * r <? den then q
             else if den <? 2 * r then q + 1
             else if Z.even q then q else q + 1 in
    let v := (inject_Z (Z.sgn (Qnum x) * m) * 2 ^ e)%Q in
    if Qle_bool (2 ^ 1024) (Qabs v) then None else Some (Qred v).

(** The number of units of [10^-f] that [toFixed] writes. *)
Definition fixedUnits (x : Q) (f : nat) : Z :=
  Qfloor (Qabs x * inject_Z (10 ^ Z.of_nat f) + (1 # 2))%Q.

(** [v.toFixed(f)] for a double [v] below [10^21] in absolute value: the
    integer [n] with [n / 10^f] nearest to [v], the larger one on a tie,
    written with [f] digits after the point. *)
Definition toFixed_digits (v : Q) (f : nat) : string :=
  let s := if Qlt_le_dec v 0 then "-" else EmptyString in
  let m := digits (fixedUnits v f) in
  let m :=
    if decide (f = 0%nat) then m
    else
      let k := String.length m in
      let m := if decide (k ≤ f)%nat then zeros (f + 1 - k) +:+ m else m in
      let k := String.length m in
      String.substring 0 (k - f) m +:+ "." +:+ String.substring (k - f) f m in
  s +:+ m.

(** [x.toFixed(f)] for the number that the rational [x] is read as. From
    [10^21] on the result is that of the conversion to a string; the
    double is an integer then. *)
Definition Number_toFixed (x : Q) (f : nat) : string :=
  match NumberValueQ x with
  | None => if Qle_bool 0 x then "Infinity" else "-Infinity"
  | Some v =>
      if Qle_bool (inject_Z (10 ^ 21)) (Qabs v) then Number_toString (Qfloor v)
      else toFixed_digits v f
  end.

(** ** The data *)

Module Product.
Record t := mk {
  id : Z;
  title : string;
  price : Q;
  description : string;
  category : string;
  image : string
}.
End Product.

Module ListItem.
Record t := mk {
  type : string;
  position : Z;
  url : string;
  name : string
}.
End ListItem.

Module ItemList.
Record t := mk {
  type : string;
  itemListElement : list ListItem.t
}.
End ItemList.

Module CollectionPage.
Record t := mk {
  context : string;
  type : string;
  name : string;
  description : string;
  mainEntity : ItemList.t
}.
End CollectionPage.

(** ** The derivations of [Home] *)

(** [Array.from(new Set(products.map((p) => p.category))).sort()] *)
Definition categories (products : list Product.t) : list string :=
  Array_sort (Array_from (Set_new (Product.category <$> products))).

(** The callback of [products.map] in [schema]. *)
Definition listItem (index : nat) (product : Product.t) : ListItem.t :=
  {| ListItem.type := "ListItem";
     ListItem.position := Z.of_nat index + 1;
     ListItem.url :=
       "https://example.com/products/" +:+ Number_toString (Product.id product);
     ListItem.name := Product.title product |}.

Definition schema (products : list Product.t) : CollectionPage.t :=
  {| CollectionPage.context := "https://schema.org";
     CollectionPage.type := "CollectionPage";
     CollectionPage.name := "Discover Our Products";
     CollectionPage.description :=
       "Browse a curated list of demo products rendered on a server-side Appscrip PLP implementation.";
     CollectionPage.mainEntity :=
       {| ItemList.type := "ItemList";
          ItemList.itemListElement := imap listItem products |} |}.

(** ** The markup *)

(** Of the page, the parts that depend on the products are modelled; the
    rest of the markup is fixed text. *)

Module FilterItem.
Record t := mk {
  key : string;
  value : string;
  label : string
}.
End FilterItem.

Module Card.
Record t := mk {
  key : Z;
  ariaLabel : string;
  imageSrc : string;
  imageAlt : string;
  cardTitle : string;
  cardCategory : string;
  cardPrice : string
}.
End Card.

Module Page.
Record t := mk {
  plpSchema : CollectionPage.t;
  filterList : list FilterItem.t;
  gridSubtitle : string;
  grid : list Card.t
}.
End Page.

(** [categories.map((category) => <li key={category}> ... </li>)] *)
Definition filterList (categories : list string) : list FilterItem.t :=
  (λ category,
     {| FilterItem.key := category;
        FilterItem.value := category;
        FilterItem.label := category |}) <$> categories.

(** The text of [<p className={styles.gridSubtitle}>]. *)
Definition gridSubtitle (products : list Product.t) : string :=
  Number_toString (Z.of_nat (length products)) +:+ " items from Fake Store API".

(** [products.map((product) => <article key={product.id}> ... </article>)] *)
Definition grid (products : list Product.t) : list Card.t :=
  (λ product,
     {| Card.key := Product.id product;
        Card.ariaLabel := Product.title product;
        Card.imageSrc := Product.image product;
        Card.imageAlt := Product.title product +:+ " product image";
        Card.cardTitle := Product.title product;
        Card.cardCategory := Product.category product;
        Card.cardPrice := "$" +:+ Number_toFixed (Product.price product) 2 |})
  <$> products.

(** The body of [Home] after the products have arrived. *)
Definition render (products : list Product.t) : Page.t :=
  let categories := categories products in
  let schema := schema products in
  {| Page.plpSchema := schema;
     Page.filterList := filterList categories;
     Page.gridSubtitle := gridSubtitle products;
     Page.grid := grid products |}.

(** ** The payload of the script element *)

(** [JSON.stringify] on the structured data. A string is written between
    quotation marks (code 34); in it the quotation mark, the backslash
    (code 92) and the control characters are escaped and every other
    character of the model is copied. A surrogate code unit that stands
    alone, which [JSON.stringify] escapes too, has a code from 55296 on
    and is not among the characters of the model. *)
Definition hexDigit (n : N) : ascii :=
  ascii_of_N (if (n <? 10)%N then 48 + n else 87 + n).

Definition UnicodeEscape (c : ascii) : string :=
  "\u00" +:+ String (hexDigit (code c / 16)) (String (hexDigit (code c mod 16)) EmptyString).

Definition QuoteJSONChar (c : ascii) : string :=
  match c with
  | "008"%char => "\b"
  | "009"%char => "\t"
  | "010"%char => "\n"
  | "012"%char => "\f"
  | "013"%char => "\r"
  | "034"%char => String "092" (String "034" EmptyString)
  | "092"%char => String "092" (String "092" EmptyString)
  | _ => if (code c <? 32)%N then UnicodeEscape c else String c EmptyString
  end.

Fixpoint QuoteJSONChars (s : string) : string :=
  match s with
  | EmptyString => EmptyString
  | String c s' => QuoteJSONChar c +:+ QuoteJSONChars s'
  end.

Definition QuoteJSONString (s : string) : string :=
  String "034" (QuoteJSONChars s +:+ String "034" EmptyString).

(** One member [key: value] of an object, the value already serialised. *)
Definition member (key value : string) : string :=
  QuoteJSONString key +:+ ":" +:+ value.

Definition SerializeJSONObject (members : list string) : string :=
  "{" +:+ String.concat "," members +:+ "}".

Definition SerializeJSONArray (elements : list string) : string :=
  "[" +:+ String.concat "," elements +:+ "]".

Definition stringifyListItem (e : ListItem.t) : string :=
  SerializeJSONObject
    [member "@type" (QuoteJSONString (ListItem.type e));
     member "position" (Number_toString (ListItem.position e));
     member "url" (QuoteJSONString (ListItem.url e));
     member "name" (QuoteJSONString (ListItem.name e))].

Definition stringifyItemList (l : ItemList.t) : string :=
  SerializeJSONObject
    [member "@type" (QuoteJSONString (ItemList.type l));
     member "itemListElement"
       (SerializeJSONArray (stringifyListItem <$> ItemList.itemListElement l))].

(** [JSON.stringify(schema)] *)
Definition JSON_stringify (schema : CollectionPage.t) : string :=
  SerializeJSONObject
    [member "@context" (QuoteJSONString (CollectionPage.context schema));
     member "@type" (QuoteJSONString (CollectionPage.type schema));
     member "name" (QuoteJSONString (CollectionPage.name schema));
     member "description" (QuoteJSONString (CollectionPage.description schema));
     member "mainEntity" (stringifyItemList (CollectionPage.mainEntity schema))].

(** The [__html] of the script element [plp-schema]. *)
Definition plpSchemaHtml (products : list Product.t) : string :=
  JSON_stringify (schema products).

(** A character of the model, its code below 256, that [JSON.stringify]
    copies as it is. *)
Definition copied (c : ascii) : bool :=
  negb (code c <? 32)%N && negb (Ascii.eqb c "034") && negb (Ascii.eqb c "092").

Fixpoint all_copied (s : string) : bool :=
  match s with
  | EmptyString => true
  | String c s' => copied c && all_copied s'
  end.

(** [t] occurs in [s]. *)
Definition occurs_in (t s : string) : Prop :=
  ∃ pre post : string, s = pre +:+ t +:+ post.

(** ** The catalogue fetch *)

Inductive Exception :=
  | Error (message : string)
  | TypeError (message : string)
  | SyntaxError (message : string).

(** The outcome of an awaited promise: fulfilled with a value, or rejected,
    which throws at the [await]. *)
Inductive Result (A : Type) :=
  | Ok (a : A)
  | Throw (e : Exception).
Arguments Ok {A} a.
Arguments Throw {A} e.

Inductive Method := GET | HEAD | POST | PUT | DELETE.

(** The cache modes the server-side [fetch] distinguishes. *)
Inductive RequestCache := cache_default | force_cache | no_store.

Module RequestInit.
Record t := mk {
  method : option Method;
  cache : option RequestCache
}.
End RequestInit.

Module Request.
Record t := mk {
  url : string;
  method : Method;
  cache : RequestCache
}.
End Request.

Module Response.
Record t := mk {
  status : Z;
  body : Result (list Product.t)
}.
(** [response.ok]: the status is in the range 200 to 299. *)
Definition ok (r : t) : bool := (200 <=? status r) && (status r <=? 299).
(** [response.json()]: the body read as JSON; the promise is rejected when
    the body is not JSON. The declared type [Promise<Product[]>] is taken
    at its word: a body that is JSON but not a list of products is not
    among the bodies of the model, and no property below says what [Home]
    does with one. *)
Definition json (r : t) : Result (list Product.t) := body r.
End Response.

(** The world outside the page: what the upstream server answers at
    present, the data cache of the framework, and the requests that went
    out to the network so far. *)
Record World := mkWorld {
  upstream : Request.t → Result Response.t;
  dataCache : gmap string Response.t;
  network : list Request.t
}.

(** Computations that act on the world and may throw. *)
Definition M (A : Type) : Type := World → Result A * World.

Definition ret {A} (a : A) : M A := λ w, (Ok a, w).
Definition throw {A} (e : Exception) : M A := λ w, (Throw e, w).
Definition await {A} (r : Result A) : M A := λ w, (r, w).
Definition bind {A B} (m : M A) (k : A → M B) : M B :=
  λ w, match m w with
       | (Ok a, w') => k a w'
       | (Throw e, w') => (Throw e, w')
       end.

Notation "x ←ᴹ m ;; k" := (bind m (λ x, k))
  (at level 100, m at next level, right associativity).

(** [new Request(input, init)]: the method is GET and the cache mode the
    default one unless [init] says otherwise. *)
Definition Request_new (input : string) (init : RequestInit.t) : Request.t :=
  {| Request.url := input;
     Request.method := default GET (RequestInit.method init);
     Request.cache := default cache_default (RequestInit.cache init) |}.

(** The request goes out to the network and the upstream server answers. *)
Definition send (request : Request.t) : M Response.t :=
  λ w, (upstream w request,
        mkWorld (upstream w) (dataCache w) (network w ++ [request])).

(** [fetch(input, init)]. With [no-store] the data cache is neither read
    nor written. Otherwise a stored response is served without a request,
    and a response fetched from upstream is stored. *)
Definition fetch (input : string) (init : RequestInit.t) : M Response.t :=
  let request := Request_new input init in
  match Request.cache request with
  | no_store => send request
  | cache_default | force_cache =>
      λ w, match dataCache w !! input with
           | Some response => (Ok response, w)
           | None =>
               match send request w with
               | (Ok response, w') =>
                   (Ok response,
                    mkWorld (upstream w') (<[input := response]> (dataCache w'))
                      (network w'))
               | (Throw e, w') => (Throw e, w')
               end
           end
  end.

Definition getProducts : M (list Product.t) :=
  response ←ᴹ fetch "https://fakestoreapi.com/products"
                {| RequestInit.method := None;
                   RequestInit.cache := Some no_store |} ;;
  if negb (Response.ok response) then
    throw (Error "Failed to load products from Fake Store API")
  else
    await (Response.json response).

Definition Home : M Page.t :=
  products ←ᴹ getProducts ;;
  ret (render products).

(** What [getProducts] makes of the answer of the upstream server. *)
Definition products_of (answer : Result Response.t) : Result (list Product.t) :=
  match answer with
  | Ok response =>
      if Response.ok response then Response.json response
      else Throw (Error "Failed to load products from Fake Store API")
  | Throw e => Throw e
  end.

Definition page_of (products : Result (list Product.t)) : Result Page.t :=
  match products with
  | Ok products => Ok (render products)
  | Throw e => Throw e
  end.

(** ** The derivations over a store of objects *)

(** Arrays and sets are objects: a variable holds a reference, and a method
    such as [sort] changes the object it is called on. The store lists the
    objects, a reference is an index into it, and a new object is put at
    the end. *)
Inductive Obj :=
  | ProductArray (a : list Product.t)
  | StringArray (a : list string)
  | StringSet (s : list string)
  | ItemArray (a : list ListItem.t).

Definition ref : Type := nat.
Definition Store : Type := list Obj.

(** Programs over the store; [None] is a use of a reference at the wrong
    type, which the type checker of the source excludes. *)
Definition Prog (A : Type) : Type := Store → option (A * Store).

Definition pret {A} (a : A) : Prog A := λ σ, Some (a, σ).
Definition pbind {A B} (m : Prog A) (k : A → Prog B) : Prog B :=
  λ σ, match m σ with
       | Some (a, σ') => k a σ'
       | None => None
       end.

Notation "x ←ˢ m ;; k" := (pbind m (λ x, k))
  (at level 100, m at next level, right associativity).

Definition alloc (o : Obj) : Prog ref := λ σ, Some (length σ, σ ++ [o]).

Definition readProducts (r : ref) : Prog (list Product.t) :=
  λ σ, match σ !! r with
       | Some (ProductArray a) => Some (a, σ)
       | _ => None
       end.

Definition readStrings (r : ref) : Prog (list string) :=
  λ σ, match σ !! r with
       | Some (StringArray a) => Some (a, σ)
       | _ => None
       end.

Definition readSet (r : ref) : Prog (list string) :=
  λ σ, match σ !! r with
       | Some (StringSet s) => Some (s, σ)
       | _ => None
       end.

Definition writeStrings (r : ref) (a : list string) : Prog unit :=
  λ σ, Some (tt, <[r := StringArray a]> σ).

(** [products.map((p) => p.category)]: a new array. *)
Definition map_category (products : ref) : Prog ref :=
  a ←ˢ readProducts products ;;
  alloc (StringArray (Product.category <$> a)).

(** [new Set(array)]: a new set. *)
Definition new_Set (array : ref) : Prog ref :=
  a ←ˢ readStrings array ;;
  alloc (StringSet (Set_new a)).

(** [Array.from(set)]: a new array. *)
Definition from_Set (set : ref) : Prog ref :=
  s ←ˢ readSet set ;;
  alloc (StringArray (Array_from s)).

(** [array.sort()]: sorts the array in place and returns it. *)
Definition sort_in_place (array : ref) : Prog ref :=
  a ←ˢ readStrings array ;;
  _ ←ˢ writeStrings array (Array_sort a) ;;
  pret array.

(** [products.map((product, index) => ({ ... }))]: a new array. *)
Definition map_listItem (products : ref) : Prog ref :=
  a ←ˢ readProducts products ;;
  alloc (ItemArray (imap listItem a)).

(** The statement [const categories = ...] of [Home]. *)
Definition categories_prog (products : ref) : Prog ref :=
  mapped ←ˢ map_category products ;;
  set ←ˢ new_Set mapped ;;
  array ←ˢ from_Set set ;;
  sort_in_place array.

(** The array [schema.mainEntity.itemListElement] of the statement
    [const schema = ...] of [Home]; the other fields of the object are
    literals. *)
Definition schema_prog (products : ref) : Prog ref :=
  map_listItem products.

(** Both derivations one after the other, as [Home] runs them. *)
Definition derive (products : ref) : Prog (ref * ref) :=
  cs ←ˢ categories_prog products ;;
  items ←ˢ schema_prog products ;;
  pret (cs, items).

(** The objects [const categories = ...] leaves behind. *)
Definition categories_objects (L : list Product.t) : list Obj :=
  [StringArray (Product.category <$> L);
   StringSet (Set_new (Product.category <$> L));
   StringArray (categories L)].

(** * Properties *)

(** ** The model at work *)

Example IsLessThan_prefix : IsLessThan "jewel" "jewelery" = true.
Proof. reflexivity. Qed.

Example IsLessThan_upper_case_first : IsLessThan "Zoo" "apple" = true.
Proof. reflexivity. Qed.

Example Set_new_keeps_first :
  Set_new ["b"; "a"; "b"; "c"; "a"] = ["b"; "a"; "c"].
Proof. reflexivity. Qed.

Example Number_toString_negative : Number_toString (-30) = "-30".
Proof. reflexivity. Qed.

Example Number_toFixed_pads : Number_toFixed (19 # 2) 2 = "9.50".
Proof. reflexivity. Qed.

Example Number_toFixed_rounds : Number_toFixed (109951 # 1000) 2 = "109.95".
Proof. reflexivity. Qed.

Example Number_toFixed_small : Number_toFixed (5 # 1000) 2 = "0.01".
Proof. reflexivity. Qed.

Example categories_example :
  categories
    [Product.mk 1 "Backpack" (10995 # 100) "Bag" "men's clothing" "1.jpg";
     Product.mk 5 "Bracelet" (695 # 1) "Gold" "jewelery" "5.jpg";
     Product.mk 9 "Hard drive" (64 # 1) "Disk" "electronics" "9.jpg";
     Product.mk 2 "Shirt" (223 # 10) "Slim" "men's clothing" "2.jpg"]
  = ["electronics"; "jewelery"; "men's clothing"].
Proof. reflexivity. Qed.

Example grid_example :
  grid [Product.mk 5 "Bracelet" (695 # 1) "Gold" "jewelery" "b.jpg"]
  = [Card.mk 5 "Bracelet" "b.jpg" "Bracelet product image" "Bracelet"
       "jewelery" "$695.00"].
Proof. reflexivity. Qed.

Example gridSubtitle_example :
  gridSubtitle [Product.mk 5 "Bracelet" (695 # 1) "Gold" "jewelery" "b.jpg"]
  = "1 items from Fake Store API".
Proof. reflexivity. Qed.

(** ** The order of strings *)

Section StringOrder.

Lemma code_inj (a b : ascii) : code a = code b → a = b.
Proof.
  unfold code. intros H.
  rewrite <- (ascii_N_embedding a), <- (ascii_N_embedding b).
  by rewrite H.
Qed.

Lemma IsLessThan_irrefl (x : string) : IsLessThan x x = false.
Proof.
  induction x as [|c x IH]; simpl; [done|].
  by rewrite N.ltb_irrefl.
Qed.

Lemma IsLessThan_asym (x y : string) :
  IsLessThan x y = true → IsLessThan y x = false.
Proof.
  revert y. induction x as [|c x IH]; intros [|d y]; simpl; try done.
  destruct (N.ltb_spec (code c) (code d)), (N.ltb_spec (code d) (code c));
    try done; try lia.
  apply IH.
Qed.

Lemma IsLessThan_trans (x y z : string) :
  IsLessThan x y = true → IsLessThan y z = true → IsLessThan x z = true.
Proof.
  revert y z.
  induction x as [|c x IH]; intros [|d y] [|e z]; simpl; try done.
  destruct (N.ltb_spec (code c) (code d)), (N.ltb_spec (code d) (code c)),
    (N.ltb_spec (code d) (code e)), (N.ltb_spec (code e) (code d)),
    (N.ltb_spec (code c) (code e)), (N.ltb_spec (code e) (code c));
    try done; try lia.
  apply IH.
Qed.

Lemma IsLessThan_connex (x y : string) :
  IsLessThan x y = false → IsLessThan y x = false → x = y.
Proof.
  revert y. induction x as [|c x IH]; intros [|d y]; simpl; try done.
  destruct (N.ltb_spec (code c) (code d)), (N.ltb_spec (code d) (code c));
    try done.
  intros Hxy Hyx. f_equal; [apply code_inj; lia | by apply IH].
Qed.

Lemma sorts_before_spec (x y : string) :
  sorts_before x y ↔ IsLessThan y x = false.
Proof.
  unfold sorts_before, SortCompare.
  destruct (IsLessThan x y) eqn:Hxy.
  - apply IsLessThan_asym in Hxy. rewrite Hxy. split; [done | lia].
  - destruct (IsLessThan y x); split; done || lia.
Qed.

Lemma sorts_before_strict (x y : string) :
  sorts_before x y → x ≠ y → strictly_before x y.
Proof.
  intros Hle Hne. apply sorts_before_spec in Hle. unfold strictly_before.
  destruct (IsLessThan x y) eqn:Hxy; [done|].
  by destruct Hne; apply IsLessThan_connex.
Qed.

#[global] Instance sorts_before_refl : Reflexive sorts_before.
Proof. intros x. apply sorts_before_spec, IsLessThan_irrefl. Qed.

#[global] Instance sorts_before_total : Total sorts_before.
Proof.
  intros x y. rewrite !sorts_before_spec.
  destruct (IsLessThan y x) eqn:Hyx; [right | by left].
  by apply IsLessThan_asym.
Qed.

#[global] Instance sorts_before_trans : Transitive sorts_before.
Proof.
  intros x y z. rewrite !sorts_before_spec. intros Hyx Hzy.
  destruct (IsLessThan z x) eqn:Hzx; [|done].
  destruct (IsLessThan x y) eqn:Hxy.
  - by rewrite (IsLessThan_trans z x y) in Hzy.
  - rewrite (IsLessThan_connex x y) in Hzx by done. congruence.
Qed.

#[global] Instance sorts_before_antisym : AntiSymm (=) sorts_before.
Proof.
  intros x y. rewrite !sorts_before_spec. intros Hyx Hxy.
  by apply IsLessThan_connex.
Qed.

End StringOrder.

(** ** Sorting and sets *)

Lemma Array_sort_Permutation (a : list string) : Array_sort a ≡ₚ a.
Proof. apply merge_sort_Permutation. Qed.

Lemma Array_sort_sorted (a : list string) :
  StronglySorted sorts_before (Array_sort a).
Proof. apply StronglySorted_merge_sort; apply _. Qed.

(** The result of sorting an array of strings does not depend on the
    algorithm: it is the only arrangement of the array in the order of the
    comparator. *)
Lemma Array_sort_unique (a b : list string) :
  b ≡ₚ a → Sorted sorts_before b → b = Array_sort a.
Proof.
  intros Hperm Hsorted.
  apply (Sorted_unique sorts_before); [done | |].
  - apply Sorted_merge_sort; apply _.
  - by rewrite Hperm, Array_sort_Permutation.
Qed.

Lemma StronglySorted_strict (a : list string) :
  NoDup a → StronglySorted sorts_before a → StronglySorted strictly_before a.
Proof.
  intros Hnodup Hsorted. revert Hnodup.
  induction Hsorted as [|x a Hsorted IH Hall]; intros Hnodup; [constructor|].
  apply NoDup_cons in Hnodup as [Hx Hnd].
  constructor; [by apply IH|].
  apply Forall_forall. intros y Hy.
  apply sorts_before_strict.
  - by eapply Forall_forall in Hall.
  - intros ->. done.
Qed.

Lemma elem_of_foldl_Set_add (s l : list string) (v : string) :
  v ∈ foldl Set_add s l ↔ v ∈ s ∨ v ∈ l.
Proof.
  revert s. induction l as [|x l IH]; intros s; simpl.
  - rewrite elem_of_nil. tauto.
  - rewrite IH, elem_of_cons. unfold Set_add.
    case_decide as Hx; [|rewrite elem_of_app, list_elem_of_singleton].
    + split; [tauto|]. intros [?|[->|?]]; tauto.
    + tauto.
Qed.

Lemma NoDup_foldl_Set_add (s l : list string) :
  NoDup s → NoDup (foldl Set_add s l).
Proof.
  revert s. induction l as [|x l IH]; intros s Hs; simpl; [done|].
  apply IH. unfold Set_add. case_decide as Hx; [done|].
  apply NoDup_app. split_and!; [done | | apply NoDup_singleton].
  intros y Hy ->%list_elem_of_singleton. done.
Qed.

Lemma elem_of_Set_new (l : list string) (v : string) : v ∈ Set_new l ↔ v ∈ l.
Proof.
  unfold Set_new. rewrite elem_of_foldl_Set_add, elem_of_nil. tauto.
Qed.

Lemma NoDup_Set_new (l : list string) : NoDup (Set_new l).
Proof. apply NoDup_foldl_Set_add, NoDup_nil_2. Qed.

(** ** The category set *)

(** C1. For every product list, [categories] holds exactly the category
    strings that occur in the list, holds none of them twice, and is in
    strictly ascending order of the string comparison, hence sorted. *)
Theorem categories_distinct_sorted (L : list Product.t) :
  (∀ c, c ∈ categories L ↔ ∃ p, p ∈ L ∧ Product.category p = c)
  ∧ NoDup (categories L)
  ∧ StronglySorted sorts_before (categories L)
  ∧ StronglySorted strictly_before (categories L).
Proof.
  assert (Hnd : NoDup (categories L)).
  { unfold categories, Array_from.
    rewrite Array_sort_Permutation. apply NoDup_Set_new. }
  split_and!.
  - intros c. unfold categories, Array_from.
    rewrite Array_sort_Permutation, elem_of_Set_new, list_elem_of_fmap.
    split.
    + intros (p & -> & Hp). by exists p.
    + intros (p & Hp & <-). by exists p.
  - done.
  - apply Array_sort_sorted.
  - apply StronglySorted_strict; [done | apply Array_sort_sorted].
Qed.

(** ** Numbers *)

Example Number_toString_rounds :
  Number_toString 9007199254740993 = "9007199254740992".
Proof. by vm_compute. Qed.

Example Number_toString_shortest :
  Number_toString 18446744073709551616 = "18446744073709552000".
Proof. by vm_compute. Qed.

Example Number_toString_last_plain :
  Number_toString 999999999999999868928 = "999999999999999900000".
Proof. by vm_compute. Qed.

Example Number_toString_exponent :
  Number_toString 1000000000000000000000 = "1e+21".
Proof. by vm_compute. Qed.

Example Number_toString_exponent_digits :
  Number_toString (- 2 ^ 70) = "-1.1805916207174113e+21".
Proof. by vm_compute. Qed.

Example Number_toString_infinite : Number_toString (10 ^ 309) = "Infinity".
Proof. by vm_compute. Qed.

Example Number_toFixed_double : Number_toFixed (1005 # 1000) 2 = "1.00".
Proof. by vm_compute. Qed.

Example Number_toFixed_exponent :
  Number_toFixed (inject_Z (10 ^ 21)) 2 = "1e+21".
Proof. by vm_compute. Qed.

Example Number_toFixed_infinite :
  Number_toFixed (inject_Z (10 ^ 309)) 2 = "Infinity".
Proof. by vm_compute. Qed.

Section Numbers.

Lemma pow2_53_lt_1024 : 2 ^ 53 < 2 ^ 1024.
Proof. by apply Z.pow_lt_mono_r. Qed.

(** An integer below [2^53] in absolute value is a double. *)
Lemma NumberValue_safe (n : Z) : Z.abs n < 2 ^ 53 → NumberValue n = Some n.
Proof.
  intros Hn. unfold NumberValue.
  assert (Hshift : Z.max 0 (Z.log2 (Z.abs n) + 1 - 53) = 0).
  { destruct (decide (Z.abs n = 0)) as [->|Hne]; [done|].
    assert (Z.log2 (Z.abs n) < 53) by (apply Z.log2_lt_pow2; lia).
    lia. }
  rewrite Hshift, Z.pow_0_r, Z.div_1_r, Z.mod_1_r.
  change (2 * 0 <? 1) with true. cbv iota.
  pose proof pow2_53_lt_1024.
  destruct (Z.leb_spec (2 ^ 1024) (Z.abs n * 1)); [lia|].
  f_equal. lia.
Qed.

(** An integer from [2^53] on is read as a double from [2^53] on. *)
Lemma NumberValue_large (y x : Z) :
  2 ^ 53 ≤ Z.abs y → NumberValue y = Some x → 2 ^ 53 ≤ Z.abs x.
Proof.
  intros Hy. unfold NumberValue.
  set (a := Z.abs y) in *.
  assert (Hlog : 53 ≤ Z.log2 a) by (apply Z.log2_le_pow2; lia).
  replace (Z.max 0 (Z.log2 a + 1 - 53)) with (Z.log2 a - 52) by lia.
  set (shift := Z.log2 a - 52).
  assert (Hpow : 2 ^ 52 * 2 ^ shift ≤ a).
  { rewrite <- Z.pow_add_r by lia.
    replace (52 + shift) with (Z.log2 a) by lia.
    apply Z.log2_spec. lia. }
  assert (Hshift : 2 ≤ 2 ^ shift).
  { change 2 with (2 ^ 1) at 1. apply Z.pow_le_mono_r; lia. }
  assert (Hq : 2 ^ 52 ≤ a / 2 ^ shift).
  { apply Z.div_le_lower_bound; lia. }
  set (q := a / 2 ^ shift) in *.
  set (q' := if 2 * (a mod 2 ^ shift) <? 2 ^ shift then q
             else if 2 ^ shift <? 2 * (a mod 2 ^ shift) then q + 1
             else if Z.even q then q else q + 1).
  assert (Hq' : q ≤ q').
  { unfold q'. repeat case_match; lia. }
  assert (Hx : 2 ^ 53 ≤ q' * 2 ^ shift).
  { change (2 ^ 53) with (2 ^ 52 * 2). nia. }
  destruct (2 ^ 1024 <=? q' * 2 ^ shift); [done|].
  intros [= <-]. subst a. destruct y; simpl in *; lia.
Qed.

Lemma rounds_to_safe (y x : Z) :
  0 < x < 2 ^ 53 → rounds_to y x = true → y = x.
Proof.
  intros Hx. unfold rounds_to.
  destruct (NumberValue y) as [x'|] eqn:Hy; [|done].
  intros ->%Z.eqb_eq.
  destruct (Z.lt_ge_cases (Z.abs y) (2 ^ 53)) as [Hsmall|Hlarge].
  - rewrite NumberValue_safe in Hy by done. by injection Hy.
  - apply NumberValue_large in Hy; [lia | done].
Qed.

Lemma shortest_from_safe (j : nat) (x : Z) :
  0 < x < 2 ^ 53 → shortest_from j x = x.
Proof.
  intros Hx. induction j as [|j IH]; [done|].
  cbn [shortest_from].
  destruct (rounds_to _ x) eqn:Hlo; destruct (rounds_to (_ + _) x) eqn:Hhi.
  - apply rounds_to_safe in Hlo, Hhi; try done. by case_match.
  - by apply rounds_to_safe in Hlo.
  - by apply rounds_to_safe in Hhi.
  - done.
Qed.

Lemma ToString_positive_safe (x : Z) :
  0 < x < 2 ^ 53 → ToString_positive x = digits x.
Proof.
  intros Hx. unfold ToString_positive, shortest.
  rewrite shortest_from_safe by done.
  assert (2 ^ 53 < 10 ^ 21) by done.
  destruct (Z.ltb_spec x (10 ^ 21)); [done | lia].
Qed.

(** A safe integer is written as its decimal numeral. *)
Lemma Number_toString_safe (n : Z) :
  Z.abs n ≤ MAX_SAFE_INTEGER → Number_toString n = digits n.
Proof.
  unfold MAX_SAFE_INTEGER. intros Hn. unfold Number_toString.
  rewrite NumberValue_safe by lia.
  destruct (Z.ltb_spec n 0).
  - rewrite ToString_positive_safe by lia. by destruct n.
  - destruct (Z.eqb_spec n 0) as [->|]; [done|].
    apply ToString_positive_safe. lia.
Qed.

End Numbers.

(** ** The structured data *)

(** The decimal numeral of an integer reads back as that integer. *)
Lemma parseDecimal_digits (n : Z) : parseDecimal (digits n) = Some n.
Proof.
  unfold parseDecimal, digits.
  rewrite NilZero.isi.
  - simpl. f_equal. apply DecimalZ.of_to.
  - destruct n; simpl; try done.
    intros [= H]. by apply DecimalPos.Unsigned.to_uint_nonnil in H.
  - destruct n; simpl; try done.
    intros [= H]. by apply DecimalPos.Unsigned.to_uint_nonnil in H.
Qed.

Lemma lookup_itemListElement (L : list Product.t) (i : nat) :
  ItemList.itemListElement (CollectionPage.mainEntity (schema L)) !! i
  = listItem i <$> L !! i.
Proof. simpl. apply list_lookup_imap. Qed.

(** C2. The item list of the structured data has as many entries as there
    are products, and the entry at index [i] (counted from 0) belongs to
    the product at index [i]: its position is [i + 1], its URL is the
    address at example.com that ends with the id of that product as a
    string, the decimal numeral of the id when the id is a safe integer,
    and its name is the title of that product. *)
Theorem schema_one_entry_per_product (L : list Product.t) :
  let items := ItemList.itemListElement (CollectionPage.mainEntity (schema L)) in
  length items = length L
  ∧ ∀ (i : nat) (p : Product.t),
      L !! i = Some p →
      ∃ e, items !! i = Some e
           ∧ ListItem.position e = Z.of_nat i + 1
           ∧ ListItem.url e
             = "https://example.com/products/" +:+ Number_toString (Product.id p)
           ∧ (Z.abs (Product.id p) ≤ MAX_SAFE_INTEGER →
              ListItem.url e
              = "https://example.com/products/" +:+ digits (Product.id p))
           ∧ ListItem.name e = Product.title p.
Proof.
  split.
  - simpl. apply length_imap.
  - intros i p Hp. exists (listItem i p).
    rewrite lookup_itemListElement, Hp. split_and!; try done.
    intros Hsafe. simpl. by rewrite Number_toString_safe.
Qed.

Lemma schema_one_entry_per_product_witness :
  let L := [Product.mk 7 "Mug" (5 # 1) "A mug" "kitchen" "mug.png";
            Product.mk 12 "Lamp" (39 # 2) "A lamp" "home" "lamp.png";
            Product.mk 305 "Rug" (30 # 1) "A rug" "home" "rug.png"] in
  length (ItemList.itemListElement (CollectionPage.mainEntity (schema L))) = 3%nat
  ∧ (∃ e, ItemList.itemListElement (CollectionPage.mainEntity (schema L)) !! 0%nat
          = Some e
          ∧ ListItem.position e = 1
          ∧ ListItem.url e = "https://example.com/products/7"
          ∧ ListItem.name e = "Mug")
  ∧ (∃ e, ItemList.itemListElement (CollectionPage.mainEntity (schema L)) !! 2%nat
          = Some e
          ∧ ListItem.position e = 3
          ∧ ListItem.url e = "https://example.com/products/305"
          ∧ ListItem.name e = "Rug").
Proof.
  intros L. split_and!.
  - apply (schema_one_entry_per_product L).
  - destruct (proj2 (schema_one_entry_per_product L) 0%nat
                (Product.mk 7 "Mug" (5 # 1) "A mug" "kitchen" "mug.png") eq_refl)
      as (e & He & Hposition & _ & Hurl & Hname).
    exists e. split_and!; [exact He | exact Hposition | | exact Hname].
    apply Hurl. by vm_compute.
  - destruct (proj2 (schema_one_entry_per_product L) 2%nat
                (Product.mk 305 "Rug" (30 # 1) "A rug" "home" "rug.png") eq_refl)
      as (e & He & Hposition & _ & Hurl & Hname).
    exists e. split_and!; [exact He | exact Hposition | | exact Hname].
    apply Hurl. by vm_compute.
Defined.

(** C8. The top-level fields of the structured data are the same for
    every product list, and so is the type of the main entity: two
    documents with the same item list are equal, so only
    [mainEntity.itemListElement] varies with the products. *)
Theorem schema_fixed_fields (L L' : list Product.t) :
  CollectionPage.context (schema L) = "https://schema.org"
  ∧ CollectionPage.type (schema L) = "CollectionPage"
  ∧ CollectionPage.name (schema L) = "Discover Our Products"
  ∧ CollectionPage.description (schema L)
    = "Browse a curated list of demo products rendered on a server-side Appscrip PLP implementation."
  ∧ CollectionPage.description (schema L) = CollectionPage.description (schema L')
  ∧ ItemList.type (CollectionPage.mainEntity (schema L)) = "ItemList"
  ∧ (ItemList.itemListElement (CollectionPage.mainEntity (schema L))
     = ItemList.itemListElement (CollectionPage.mainEntity (schema L')) →
     schema L = schema L').
Proof.
  split_and!; try reflexivity.
  unfold schema. simpl. by intros ->.
Qed.

Lemma schema_fixed_fields_witness :
  let L := [Product.mk 7 "Mug" (5 # 1) "A mug" "kitchen" "mug.png"] in
  let L' := [Product.mk 7 "Mug" (6 # 1) "A large mug" "home" "mug2.png"] in
  L ≠ L' ∧ schema L = schema L'.
Proof.
  intros L L'. split; [done|].
  apply (schema_fixed_fields L L'). reflexivity.
Defined.

(** The item list does vary with the products. *)
Example schema_items_vary :
  schema [Product.mk 7 "Mug" (5 # 1) "A mug" "kitchen" "mug.png"] ≠ schema [].
Proof. done. Qed.



(** Beyond the safe integers the id is written as the double it is read
    as, in exponent form from [10^21] on. *)
Example itemListElement_url_large :
  ListItem.url <$>
    ItemList.itemListElement
      (CollectionPage.mainEntity
         (schema [Product.mk 9007199254740993 "Mug" (5 # 1) "A mug" "kitchen" "mug.png";
                  Product.mk 1000000000000000000000 "Rug" (30 # 1) "A rug" "home" "rug.png"]))
  = ["https://example.com/products/9007199254740992";
     "https://example.com/products/1e+21"].
Proof. by vm_compute. Qed.

(** ** Scenarios *)

(** C6. For the two products with ids 1 and 2, titles A and B, prices 9.5
    and 20 and categories x and y, whatever their other fields, the
    categories are [x; y] and the item list has the entries with positions
    1 and 2 and names A and B. *)
Theorem scenario_two_products (d1 i1 d2 i2 : string) :
  let L := [Product.mk 1 "A" (19 # 2) d1 "x" i1;
            Product.mk 2 "B" (20 # 1) d2 "y" i2] in
  categories L = ["x"; "y"]
  ∧ ItemList.itemListElement (CollectionPage.mainEntity (schema L))
    = [ListItem.mk "ListItem" 1 "https://example.com/products/1" "A";
       ListItem.mk "ListItem" 2 "https://example.com/products/2" "B"].
Proof. split; reflexivity. Qed.

(** C5, as the page has it. For the empty product list there are no
    categories, the grid has no card, and the label of the item count
    reads "0 items from Fake Store API", a text that begins with
    "0 items". *)
Theorem scenario_no_products :
  categories [] = []
  ∧ grid [] = []
  ∧ length (grid []) = 0%nat
  ∧ gridSubtitle [] = "0 items from Fake Store API"
  ∧ String.prefix "0 items" (gridSubtitle []) = true.
Proof. split_and!; reflexivity. Qed.

(** The label of the empty list is not the text "0 items". *)
Lemma scenario_no_products_label :
  ¬ (categories [] = [] ∧ grid [] = [] ∧ gridSubtitle [] = "0 items").
Proof. intros (_ & _ & H). discriminate H. Qed.

(** ** The catalogue fetch *)

Lemma getProducts_run (w : World) :
  let request := Request.mk "https://fakestoreapi.com/products" GET no_store in
  getProducts w
  = (products_of (upstream w request),
     mkWorld (upstream w) (dataCache w) (network w ++ [request])).
Proof.
  unfold getProducts, bind, fetch, send. simpl.
  destruct (upstream w _) as [response|e]; simpl; [|done].
  unfold throw, await. by destruct (Response.ok response).
Qed.

Lemma Home_run (w : World) :
  let request := Request.mk "https://fakestoreapi.com/products" GET no_store in
  Home w
  = (page_of (products_of (upstream w request)),
     mkWorld (upstream w) (dataCache w) (network w ++ [request])).
Proof.
  unfold Home, bind. rewrite getProducts_run. simpl.
  by destruct (products_of _).
Qed.

(** A fetch that may use the data cache does not see a change upstream:
    a stored response is served and no request goes out. *)
Example fetch_force_cache_is_stale (stored : Response.t) (w : World) :
  dataCache w !! "https://fakestoreapi.com/products" = Some stored →
  fetch "https://fakestoreapi.com/products"
    (RequestInit.mk None (Some force_cache)) w
  = (Ok stored, w).
Proof. intros H. unfold fetch. simpl. by rewrite H. Qed.

(** C7. [getProducts] has no parameter. In any world it sends one request:
    a GET to the fixed address of the catalogue, which has no query part,
    with the cache mode [no-store]. The data cache is not read and not
    written, so the products, and the page [Home] makes of them, are those
    the upstream server answers with at present. *)
Theorem getProducts_fetches_upstream (w : World) :
  let request := Request.mk "https://fakestoreapi.com/products" GET no_store in
  String.index 0 "?" (Request.url request) = None
  ∧ getProducts w
    = (products_of (upstream w request),
       mkWorld (upstream w) (dataCache w) (network w ++ [request]))
  ∧ Home w
    = (page_of (products_of (upstream w request)),
       mkWorld (upstream w) (dataCache w) (network w ++ [request]))
  ∧ ∀ cache' : gmap string Response.t,
      (Home (mkWorld (upstream w) cache' (network w))).1 = (Home w).1.
Proof.
  split_and!.
  - reflexivity.
  - apply getProducts_run.
  - apply Home_run.
  - intros cache'. by rewrite !Home_run.
Qed.

(** C3, as the page has it. When the upstream server answers with a
    status outside 200..299, [getProducts] throws its error and yields no
    product list, and [Home] throws the same error and yields no page. It
    is not the only error: when [fetch] is rejected, or when the status is
    a success and [response.json()] is rejected, the render fails with the
    error of that rejection. *)
Theorem non_success_status_aborts_render (w : World) (response : Response.t) :
  let request := Request.mk "https://fakestoreapi.com/products" GET no_store in
  let failure := Error "Failed to load products from Fake Store API" in
  upstream w request = Ok response →
  Response.ok response = false →
  (getProducts w).1 = Throw failure
  ∧ (Home w).1 = Throw failure
  ∧ (∀ products, (getProducts w).1 ≠ Ok products)
  ∧ (∀ page, (Home w).1 ≠ Ok page)
  ∧ (∀ (w' : World) (e : Exception),
       upstream w' request = Throw e → (Home w').1 = Throw e)
  ∧ (∀ (w' : World) (response' : Response.t) (e : Exception),
       upstream w' request = Ok response' →
       Response.ok response' = true →
       Response.json response' = Throw e →
       (Home w').1 = Throw e).
Proof.
  intros request failure Hanswer Hok.
  assert (Hget : (getProducts w).1 = Throw failure).
  { rewrite getProducts_run. cbn [fst]. fold request.
    unfold products_of. by rewrite Hanswer, Hok. }
  assert (Hhome : (Home w).1 = Throw failure).
  { rewrite Home_run. cbn [fst]. fold request.
    unfold products_of. by rewrite Hanswer, Hok. }
  split_and!; try done.
  - intros products. by rewrite Hget.
  - intros page. by rewrite Hhome.
  - intros w' e Hup. rewrite Home_run. cbn [fst]. fold request.
    by rewrite Hup.
  - intros w' response' e Hup Hok' Hjson.
    rewrite Home_run. cbn [fst]. fold request.
    unfold products_of. by rewrite Hup, Hok', Hjson.
Qed.

Lemma non_success_status_aborts_render_witness :
  let products := [Product.mk 7 "Mug" (5 # 1) "A mug" "kitchen" "mug.png"] in
  let w := mkWorld (λ _, Ok (Response.mk 404 (Ok products))) ∅ [] in
  (getProducts w).1 = Throw (Error "Failed to load products from Fake Store API")
  ∧ (Home w).1 = Throw (Error "Failed to load products from Fake Store API").
Proof.
  intros products w.
  destruct (non_success_status_aborts_render w (Response.mk 404 (Ok products))
              eq_refl eq_refl) as (Hget & Hhome & _).
  split; [exact Hget | exact Hhome].
Defined.

(** The error of [getProducts] is not the only error of a render: with a
    status of success and a body that is not JSON, [Home] fails with the
    error of [response.json()]. *)
Lemma fetch_failure_not_the_only_error :
  let w := mkWorld
             (λ _, Ok (Response.mk 200
                         (Throw (SyntaxError "Unexpected token < in JSON at position 0"))))
             ∅ [] in
  (Home w).1 = Throw (SyntaxError "Unexpected token < in JSON at position 0")
  ∧ ¬ (∀ e : Exception,
         (Home w).1 = Throw e →
         e = Error "Failed to load products from Fake Store API").
Proof.
  intros w. split; [reflexivity|].
  intros Honly. specialize (Honly _ eq_refl). discriminate Honly.
Qed.

(** ** The derivations over the store *)

Section Store.

Implicit Types (σ : Store) (r : ref) (o : Obj).

Lemma lookup_alloc σ o : (σ ++ [o]) !! length σ = Some o.
Proof. by rewrite lookup_app_r, Nat.sub_diag. Qed.

Lemma lookup_old σ (τ : Store) r o : σ !! r = Some o → (σ ++ τ) !! r = Some o.
Proof. apply lookup_app_l_Some. Qed.

Lemma map_category_run σ r (a : list Product.t) :
  σ !! r = Some (ProductArray a) →
  map_category r σ
  = Some (length σ, σ ++ [StringArray (Product.category <$> a)]).
Proof. intros H. unfold map_category, pbind, readProducts. by rewrite H. Qed.

Lemma new_Set_run σ r (a : list string) :
  σ !! r = Some (StringArray a) →
  new_Set r σ = Some (length σ, σ ++ [StringSet (Set_new a)]).
Proof. intros H. unfold new_Set, pbind, readStrings. by rewrite H. Qed.

Lemma from_Set_run σ r (s : list string) :
  σ !! r = Some (StringSet s) →
  from_Set r σ = Some (length σ, σ ++ [StringArray (Array_from s)]).
Proof. intros H. unfold from_Set, pbind, readSet. by rewrite H. Qed.

Lemma sort_in_place_run σ r (a : list string) :
  σ !! r = Some (StringArray a) →
  sort_in_place r σ = Some (r, <[r := StringArray (Array_sort a)]> σ).
Proof. intros H. unfold sort_in_place, pbind, readStrings. by rewrite H. Qed.

Lemma map_listItem_run σ r (a : list Product.t) :
  σ !! r = Some (ProductArray a) →
  map_listItem r σ = Some (length σ, σ ++ [ItemArray (imap listItem a)]).
Proof. intros H. unfold map_listItem, pbind, readProducts. by rewrite H. Qed.

Lemma categories_prog_run σ r (L : list Product.t) :
  σ !! r = Some (ProductArray L) →
  categories_prog r σ
  = Some ((length σ + 2)%nat, σ ++ categories_objects L).
Proof.
  intros H. unfold categories_prog, pbind.
  rewrite (map_category_run σ r L H).
  rewrite (new_Set_run _ _ _ (lookup_alloc σ _)).
  rewrite (from_Set_run _ _ _ (lookup_alloc _ _)).
  rewrite (sort_in_place_run _ _ _ (lookup_alloc _ _)).
  rewrite !length_app. cbn [length].
  rewrite <- !(assoc_L (++)). cbn [app].
  rewrite (insert_app_r_alt σ) by lia.
  replace (length σ + 1 + 1 - length σ)%nat with 2%nat by lia.
  replace (length σ + 1 + 1)%nat with (length σ + 2)%nat by lia.
  reflexivity.
Qed.

Lemma derive_run σ r (L : list Product.t) :
  σ !! r = Some (ProductArray L) →
  derive r σ
  = Some (((length σ + 2)%nat, (length σ + 3)%nat),
          σ ++ categories_objects L ++ [ItemArray (imap listItem L)]).
Proof.
  intros H. unfold derive, pbind, schema_prog.
  rewrite (categories_prog_run σ r L H).
  rewrite (map_listItem_run _ _ L (lookup_old _ _ _ _ H)).
  unfold pret. rewrite length_app. cbn [length categories_objects].
  by rewrite <- (assoc_L (++)).
Qed.

Lemma lookup_derived_categories σ (L : list Product.t) (τ : Store) :
  (σ ++ categories_objects L ++ τ) !! (length σ + 2)%nat
  = Some (StringArray (categories L)).
Proof.
  rewrite lookup_app_r by lia.
  by replace (length σ + 2 - length σ)%nat with 2%nat by lia.
Qed.

Lemma lookup_derived_items σ (L : list Product.t) (o : Obj) :
  (σ ++ categories_objects L ++ [o]) !! (length σ + 3)%nat = Some o.
Proof.
  rewrite lookup_app_r by lia.
  by replace (length σ + 3 - length σ)%nat with 3%nat by lia.
Qed.

End Store.

(** What a run of each derivation does to the store. *)
Lemma categories_prog_frame (σ : Store) (products : ref) (L : list Product.t) :
  σ !! products = Some (ProductArray L) →
  ∃ (cs : ref) (σ' : Store),
    categories_prog products σ = Some (cs, σ')
    ∧ (∀ r o, σ !! r = Some o → σ' !! r = Some o)
    ∧ (length σ ≤ cs)%nat
    ∧ σ' !! cs = Some (StringArray (categories L)).
Proof.
  intros H. eexists _, _. split; [by apply categories_prog_run|].
  split_and!.
  - intros r o. apply lookup_old.
  - lia.
  - rewrite <- (app_nil_r (categories_objects L)).
    apply lookup_derived_categories.
Qed.

Lemma schema_prog_frame (σ : Store) (products : ref) (L : list Product.t) :
  σ !! products = Some (ProductArray L) →
  ∃ (items : ref) (σ' : Store),
    schema_prog products σ = Some (items, σ')
    ∧ (∀ r o, σ !! r = Some o → σ' !! r = Some o)
    ∧ (length σ ≤ items)%nat
    ∧ σ' !! items
      = Some (ItemArray
                (ItemList.itemListElement (CollectionPage.mainEntity (schema L)))).
Proof.
  intros H. eexists _, _. split; [by apply map_listItem_run|].
  split_and!.
  - intros r o. apply lookup_old.
  - lia.
  - apply lookup_alloc.
Qed.

(** What a run of [derive] does to the store. *)
Lemma derive_frame (σ : Store) (products : ref) (L : list Product.t) :
  σ !! products = Some (ProductArray L) →
  ∃ (cs items : ref) (σ' : Store),
    derive products σ = Some ((cs, items), σ')
    ∧ (∀ r o, σ !! r = Some o → σ' !! r = Some o)
    ∧ (length σ ≤ cs)%nat
    ∧ (length σ ≤ items)%nat
    ∧ σ' !! cs = Some (StringArray (categories L))
    ∧ σ' !! items
      = Some (ItemArray
                (ItemList.itemListElement (CollectionPage.mainEntity (schema L)))).
Proof.
  intros H. eexists _, _, _. split; [by apply derive_run|].
  split_and!.
  - intros r o. apply lookup_old.
  - lia.
  - lia.
  - apply lookup_derived_categories.
  - apply lookup_derived_items.
Qed.

(** C10. Running both derivations on the array of products leaves that
    array as it was, as it leaves every object that existed before: the
    array that is sorted and the array of entries are new objects. *)
Theorem derivations_leave_products_unchanged
    (σ : Store) (products : ref) (L : list Product.t) :
  σ !! products = Some (ProductArray L) →
  ∃ (cs items : ref) (σ' : Store),
    derive products σ = Some ((cs, items), σ')
    ∧ σ' !! products = Some (ProductArray L)
    ∧ (∀ r o, σ !! r = Some o → σ' !! r = Some o)
    ∧ (length σ ≤ cs)%nat
    ∧ (length σ ≤ items)%nat
    ∧ cs ≠ products
    ∧ items ≠ products.
Proof.
  intros H.
  destruct (derive_frame σ products L H)
    as (cs & items & σ' & Hrun & Hold & Hcs & Hitems & _).
  exists cs, items, σ'.
  apply lookup_lt_Some in H as Hlt.
  split_and!; try done; [by apply Hold | lia | lia].
Qed.

Lemma derivations_leave_products_unchanged_witness :
  let L := [Product.mk 12 "Lamp" (39 # 2) "A lamp" "home" "lamp.png";
            Product.mk 7 "Mug" (5 # 1) "A mug" "kitchen" "mug.png";
            Product.mk 8 "Rug" (30 # 1) "A rug" "home" "rug.png"] in
  ∃ (cs items : ref) (σ' : Store),
    derive 0%nat [ProductArray L] = Some ((cs, items), σ')
    ∧ σ' !! 0%nat = Some (ProductArray L).
Proof.
  intros L.
  destruct (derivations_leave_products_unchanged [ProductArray L] 0%nat L eq_refl)
    as (cs & items & σ' & Hrun & Hsame & _).
  exists cs, items, σ'. split; [exact Hrun | exact Hsame].
Defined.

(** C4. Calling either derivation twice on the same array of products
    gives the same output both times, the categories of the list and the
    entries of the list, and the second call leaves the output of the
    first as it was. *)
Theorem derivations_twice_same_output
    (σ : Store) (products : ref) (L : list Product.t) :
  σ !! products = Some (ProductArray L) →
  (∃ (cs1 cs2 : ref) (σ1 σ2 : Store),
     categories_prog products σ = Some (cs1, σ1)
     ∧ categories_prog products σ1 = Some (cs2, σ2)
     ∧ σ1 !! cs1 = Some (StringArray (categories L))
     ∧ σ2 !! cs2 = σ1 !! cs1
     ∧ σ2 !! cs1 = σ1 !! cs1)
  ∧ (∃ (items1 items2 : ref) (σ1 σ2 : Store),
       schema_prog products σ = Some (items1, σ1)
       ∧ schema_prog products σ1 = Some (items2, σ2)
       ∧ σ1 !! items1
         = Some (ItemArray
                   (ItemList.itemListElement
                      (CollectionPage.mainEntity (schema L))))
       ∧ σ2 !! items2 = σ1 !! items1
       ∧ σ2 !! items1 = σ1 !! items1).
Proof.
  intros H. split.
  - destruct (categories_prog_frame σ products L H)
      as (cs1 & σ1 & Hrun1 & Hold1 & _ & Hcs1).
    destruct (categories_prog_frame σ1 products L (Hold1 _ _ H))
      as (cs2 & σ2 & Hrun2 & Hold2 & _ & Hcs2).
    exists cs1, cs2, σ1, σ2. split_and!; try done.
    + by rewrite Hcs1, Hcs2.
    + rewrite Hcs1. by apply Hold2.
  - destruct (schema_prog_frame σ products L H)
      as (items1 & σ1 & Hrun1 & Hold1 & _ & Hitems1).
    destruct (schema_prog_frame σ1 products L (Hold1 _ _ H))
      as (items2 & σ2 & Hrun2 & Hold2 & _ & Hitems2).
    exists items1, items2, σ1, σ2. split_and!; try done.
    + by rewrite Hitems1, Hitems2.
    + rewrite Hitems1. by apply Hold2.
Qed.

Lemma derivations_twice_same_output_witness :
  let L := [Product.mk 12 "Lamp" (39 # 2) "A lamp" "home" "lamp.png";
            Product.mk 7 "Mug" (5 # 1) "A mug" "kitchen" "mug.png";
            Product.mk 8 "Rug" (30 # 1) "A rug" "home" "rug.png"] in
  ∃ (cs1 cs2 : ref) (σ1 σ2 : Store),
    categories_prog 0%nat [ProductArray L] = Some (cs1, σ1)
    ∧ categories_prog 0%nat σ1 = Some (cs2, σ2)
    ∧ σ1 !! cs1 = Some (StringArray ["home"; "kitchen"])
    ∧ σ2 !! cs2 = σ1 !! cs1.
Proof.
  intros L.
  destruct (derivations_twice_same_output [ProductArray L] 0%nat L eq_refl)
    as [(cs1 & cs2 & σ1 & σ2 & Hrun1 & Hrun2 & Hcs1 & Hcs2 & _) _].
  exists cs1, cs2, σ1, σ2.
  split_and!; [exact Hrun1 | exact Hrun2 | exact Hcs1 | exact Hcs2].
Defined.

(** * Further properties *)

(** ** More on the category set *)

Lemma elem_of_categories (L : list Product.t) (c : string) :
  c ∈ categories L ↔ c ∈ Product.category <$> L.
Proof.
  unfold categories, Array_from.
  by rewrite Array_sort_Permutation, elem_of_Set_new.
Qed.

Lemma NoDup_categories (L : list Product.t) : NoDup (categories L).
Proof.
  unfold categories, Array_from.
  rewrite Array_sort_Permutation. apply NoDup_Set_new.
Qed.

(** A sorted array of strings without duplicates is determined by its
    members. *)
Lemma sorted_NoDup_ext (a b : list string) :
  NoDup a → NoDup b → Sorted sorts_before a → Sorted sorts_before b →
  (∀ c, c ∈ a ↔ c ∈ b) → a = b.
Proof.
  intros Ha Hb Hsa Hsb Hmem.
  apply (Sorted_unique sorts_before); [done | done |].
  by apply NoDup_Permutation.
Qed.


Lemma length_foldl_Set_add (s l : list string) :
  (length (foldl Set_add s l) ≤ length s + length l)%nat.
Proof.
  revert s. induction l as [|x l IH]; intros s; simpl; [lia|].
  etrans; [apply IH|]. unfold Set_add.
  case_decide; [lia|]. rewrite length_app. simpl. lia.
Qed.

(** X1. [categories] is the only array that is sorted, has no duplicates
    and holds exactly the categories of the products. *)
Theorem categories_characterised (L : list Product.t) (b : list string) :
  NoDup b →
  Sorted sorts_before b →
  (∀ c, c ∈ b ↔ ∃ p, p ∈ L ∧ Product.category p = c) →
  b = categories L.
Proof.
  intros Hnd Hsorted Hmem.
  apply sorted_NoDup_ext; try done.
  - apply NoDup_categories.
  - apply Sorted_merge_sort; apply _.
  - intros c. rewrite Hmem, elem_of_categories, list_elem_of_fmap.
    split.
    + intros (p & Hp & <-). by exists p.
    + intros (p & -> & Hp). by exists p.
Qed.

Lemma categories_characterised_witness :
  ["home"; "kitchen"]
  = categories [Product.mk 7 "Mug" (5 # 1) "A mug" "kitchen" "mug.png";
                Product.mk 12 "Lamp" (39 # 2) "A lamp" "home" "lamp.png";
                Product.mk 8 "Rug" (30 # 1) "A rug" "home" "rug.png"].
Proof.
  apply categories_characterised.
  - apply NoDup_cons. split; [|apply NoDup_singleton].
    by intros ?%list_elem_of_singleton.
  - repeat constructor. by vm_compute.
  - intros c. rewrite !elem_of_cons, elem_of_nil. split.
    + intros [->|[->|[]]].
      * exists (Product.mk 12 "Lamp" (39 # 2) "A lamp" "home" "lamp.png").
        split; [|done]. rewrite !elem_of_cons. auto.
      * exists (Product.mk 7 "Mug" (5 # 1) "A mug" "kitchen" "mug.png").
        split; [|done]. rewrite !elem_of_cons. auto.
    + intros (p & Hp & <-).
      rewrite !elem_of_cons, elem_of_nil in Hp.
      destruct Hp as [->|[->|[->|[]]]]; auto.
Defined.

(** X2. The categories depend only on which category strings occur among
    the products: not on the order of the products, and not on how many
    products share a category. *)
Theorem categories_same_members (L L' : list Product.t) :
  (∀ c, c ∈ Product.category <$> L ↔ c ∈ Product.category <$> L') →
  categories L = categories L'.
Proof.
  intros Hmem.
  apply sorted_NoDup_ext.
  - apply NoDup_categories.
  - apply NoDup_categories.
  - apply Sorted_merge_sort; apply _.
  - apply Sorted_merge_sort; apply _.
  - intros c. by rewrite !elem_of_categories.
Qed.

Lemma categories_same_members_witness :
  categories [Product.mk 7 "Mug" (5 # 1) "A mug" "kitchen" "mug.png";
              Product.mk 12 "Lamp" (39 # 2) "A lamp" "home" "lamp.png";
              Product.mk 8 "Rug" (30 # 1) "A rug" "home" "rug.png"]
  = categories [Product.mk 12 "Lamp" (39 # 2) "A lamp" "home" "lamp.png";
                Product.mk 7 "Mug" (5 # 1) "A mug" "kitchen" "mug.png"].
Proof.
  apply categories_same_members.
  intros c. simpl. rewrite !elem_of_cons, elem_of_nil. tauto.
Defined.

(** X3. There are at most as many categories as products, and there is no
    category exactly when there is no product. *)
Theorem categories_size (L : list Product.t) :
  (length (categories L) ≤ length L)%nat
  ∧ (categories L = [] ↔ L = []).
Proof.
  split.
  - unfold categories, Array_from.
    rewrite Array_sort_Permutation.
    etrans; [apply length_foldl_Set_add|].
    rewrite length_fmap. simpl. lia.
  - split; [|by intros ->].
    destruct L as [|p L]; [done|]. intros Hnil.
    assert (Hp : Product.category p ∈ categories (p :: L)).
    { apply elem_of_categories. simpl. apply elem_of_cons. by left. }
    rewrite Hnil in Hp. by apply elem_of_nil in Hp.
Qed.



(** ** The parts of the page agree *)

Lemma append_inj_r (s a b : string) : s +:+ a = s +:+ b → a = b.
Proof.
  induction s as [|c s IH]; simpl; [done|].
  intros [= H]. by apply IH.
Qed.

Lemma digits_inj (n m : Z) : digits n = digits m → n = m.
Proof.
  intros H. apply (f_equal parseDecimal) in H.
  rewrite !parseDecimal_digits in H. by injection H.
Qed.

(** X5. The filter has one checkbox for each category, in the order of
    the categories; value and label are the category, and no two
    checkboxes have the same key. *)
Theorem filterList_keys_distinct (L : list Product.t) :
  let items := Page.filterList (render L) in
  NoDup (FilterItem.key <$> items)
  ∧ FilterItem.key <$> items = categories L
  ∧ Forall (λ item, FilterItem.value item = FilterItem.key item
                    ∧ FilterItem.label item = FilterItem.key item) items.
Proof.
  assert (Hkeys : FilterItem.key <$> Page.filterList (render L) = categories L).
  { simpl. unfold filterList. rewrite <- list_fmap_compose.
    apply list_fmap_id. }
  split_and!.
  - rewrite Hkeys. apply NoDup_categories.
  - done.
  - simpl. unfold filterList. apply Forall_fmap, Forall_forall. by intros c _.
Qed.

(** X6. The filter offers exactly the categories shown on the cards:
    the category of every card has a checkbox, and every checkbox is the
    category of some card. *)
Theorem filterList_covers_grid (L : list Product.t) (c : string) :
  c ∈ FilterItem.value <$> Page.filterList (render L)
  ↔ ∃ card, card ∈ Page.grid (render L) ∧ Card.cardCategory card = c.
Proof.
  assert (Hvalues :
    FilterItem.value <$> Page.filterList (render L) = categories L).
  { simpl. unfold filterList. rewrite <- list_fmap_compose.
    apply list_fmap_id. }
  rewrite Hvalues, elem_of_categories, list_elem_of_fmap.
  simpl. unfold grid. split.
  - intros (p & -> & Hp).
    eexists. split; [apply list_elem_of_fmap; by exists p | done].
  - intros (card & (p & -> & Hp)%list_elem_of_fmap & <-). by exists p.
Qed.

(** X7. Cards and structured data go together: there are as many entries
    as cards, the label begins with the number of cards, and the entry at
    an index has the title of the card at that index as its name, the
    index plus one as its position, and the key of that card at the end of
    its URL. The number of cards and the key are written as decimal
    numerals when they are safe integers. *)
Theorem grid_matches_schema (L : list Product.t) :
  let page := render L in
  let items :=
    ItemList.itemListElement (CollectionPage.mainEntity (Page.plpSchema page)) in
  length items = length (Page.grid page)
  ∧ Page.gridSubtitle page
    = Number_toString (Z.of_nat (length (Page.grid page)))
      +:+ " items from Fake Store API"
  ∧ (Z.of_nat (length (Page.grid page)) ≤ MAX_SAFE_INTEGER →
     Page.gridSubtitle page
     = digits (Z.of_nat (length (Page.grid page))) +:+ " items from Fake Store API")
  ∧ ∀ (i : nat) (card : Card.t),
      Page.grid page !! i = Some card →
      ∃ e, items !! i = Some e
           ∧ ListItem.name e = Card.cardTitle card
           ∧ ListItem.position e = Z.of_nat i + 1
           ∧ ListItem.url e
             = "https://example.com/products/" +:+ Number_toString (Card.key card)
           ∧ (Z.abs (Card.key card) ≤ MAX_SAFE_INTEGER →
              ListItem.url e
              = "https://example.com/products/" +:+ digits (Card.key card)).
Proof.
  assert (Hlabel : Page.gridSubtitle (render L)
                   = Number_toString (Z.of_nat (length (Page.grid (render L))))
                     +:+ " items from Fake Store API").
  { simpl. unfold gridSubtitle, grid. by rewrite length_fmap. }
  split_and!.
  - simpl. unfold grid. by rewrite length_imap, length_fmap.
  - done.
  - intros Hsafe. rewrite Hlabel, Number_toString_safe; [done | lia].
  - intros i card. simpl. unfold grid.
    rewrite list_lookup_fmap, list_lookup_imap.
    destruct (L !! i) as [p|]; simpl; [|done].
    intros [= <-]. eexists. split_and!; try done.
    intros Hsafe. simpl in *. by rewrite Number_toString_safe.
Qed.

Lemma grid_matches_schema_witness :
  let L := [Product.mk 7 "Mug" (5 # 1) "A mug" "kitchen" "mug.png";
            Product.mk 305 "Lamp" (39 # 2) "A lamp" "home" "lamp.png"] in
  Page.gridSubtitle (render L) = "2 items from Fake Store API"
  ∧ ∃ e, ItemList.itemListElement
           (CollectionPage.mainEntity (Page.plpSchema (render L))) !! 1%nat = Some e
         ∧ ListItem.name e = "Lamp"
         ∧ ListItem.position e = 2
         ∧ ListItem.url e = "https://example.com/products/305".
Proof.
  intros L.
  destruct (grid_matches_schema L) as (_ & _ & Hlabel & Hcards).
  split.
  - apply Hlabel. by vm_compute.
  - destruct (Hcards 1%nat
                (Card.mk 305 "Lamp" "lamp.png" "Lamp product image" "Lamp" "home"
                   "$19.50") eq_refl) as (e & He & Hname & Hposition & _ & Hurl).
    exists e. split_and!; [exact He | exact Hname | exact Hposition |].
    apply Hurl. by vm_compute.
Defined.

(** X8. Two entries of the structured data whose products have safe
    integers as ids have the same URL exactly when the ids are equal. *)
Theorem itemListElement_url_inj (L : list Product.t)
    (i j : nat) (p q : Product.t) (e f : ListItem.t) :
  L !! i = Some p →
  L !! j = Some q →
  Z.abs (Product.id p) ≤ MAX_SAFE_INTEGER →
  Z.abs (Product.id q) ≤ MAX_SAFE_INTEGER →
  ItemList.itemListElement (CollectionPage.mainEntity (schema L)) !! i = Some e →
  ItemList.itemListElement (CollectionPage.mainEntity (schema L)) !! j = Some f →
  ListItem.url e = ListItem.url f ↔ Product.id p = Product.id q.
Proof.
  intros Hp Hq Hsafep Hsafeq. rewrite !lookup_itemListElement, Hp, Hq. simpl.
  intros [= <-] [= <-]. simpl.
  rewrite !Number_toString_safe by done. split.
  - intros H. by apply append_inj_r, digits_inj in H.
  - by intros ->.
Qed.

Lemma itemListElement_url_inj_witness :
  ListItem.url (listItem 0 (Product.mk 7 "Mug" (5 # 1) "A mug" "kitchen" "mug.png"))
  ≠ ListItem.url (listItem 1 (Product.mk 12 "Lamp" (39 # 2) "A lamp" "home" "lamp.png")).
Proof.
  intros H.
  apply (itemListElement_url_inj
           [Product.mk 7 "Mug" (5 # 1) "A mug" "kitchen" "mug.png";
            Product.mk 12 "Lamp" (39 # 2) "A lamp" "home" "lamp.png"]
           0 1 _ _ _ _ eq_refl eq_refl) in H;
    [discriminate H | by vm_compute | by vm_compute | reflexivity | reflexivity].
Defined.

(** Ids beyond the safe integers can be read as one double, and then have
    one URL. *)
Example itemListElement_url_collapse :
  ListItem.url (listItem 0 (Product.mk 9007199254740993 "Mug" (5 # 1) "A mug" "kitchen" "mug.png"))
  = ListItem.url (listItem 1 (Product.mk 9007199254740992 "Lamp" (39 # 2) "A lamp" "home" "lamp.png")).
Proof. by vm_compute. Qed.

(** ** The price on a card *)

Section Price.

Lemma append_cons (c : ascii) (s t : string) :
  String c s +:+ t = String c (s +:+ t).
Proof. reflexivity. Qed.

Lemma length_append (s t : string) :
  String.length (s +:+ t) = (String.length s + String.length t)%nat.
Proof. induction s as [|c s IH]; simpl; [done | by rewrite IH]. Qed.

Lemma substring_all (s : string) : String.substring 0 (String.length s) s = s.
Proof. induction s as [|c s IH]; simpl; [done | by rewrite IH]. Qed.

Lemma substring_split (j : nat) (s : string) :
  (j ≤ String.length s)%nat →
  String.substring 0 j s +:+ String.substring j (String.length s - j) s = s.
Proof.
  revert j. induction s as [|c s IH]; intros j Hj.
  - simpl in Hj. by replace j with 0%nat by lia.
  - destruct j as [|j]; simpl.
    + by rewrite substring_all.
    + simpl in Hj. rewrite append_cons. f_equal. apply IH. lia.
Qed.

Lemma length_substring (n m : nat) (s : string) :
  (n + m ≤ String.length s)%nat → String.length (String.substring n m s) = m.
Proof.
  revert n m. induction s as [|c s IH]; intros [|n] [|m] Hs; simpl in *;
    try done; try lia.
  - by rewrite (IH 0%nat m) by lia.
  - apply (IH n 0%nat). lia.
  - apply (IH n (S m)). lia.
Qed.

Lemma zeros_S (k : nat) : zeros (S k) = String "0" (zeros k).
Proof. unfold zeros. by destruct k. Qed.

Lemma length_zeros (k : nat) : String.length (zeros k) = k.
Proof.
  induction k as [|k IH]; [done|]. rewrite zeros_S. simpl. by rewrite IH.
Qed.

Lemma digits_nonneg (n : Z) :
  0 ≤ n →
  ∃ d, d ≠ Decimal.Nil
       ∧ digits n = NilEmpty.string_of_uint d
       ∧ Z.of_uint d = n.
Proof.
  intros Hn. unfold digits. destruct n as [|q|q]; [| |lia].
  - by exists (Decimal.D0 Decimal.Nil).
  - exists (Pos.to_uint q). split_and!.
    + apply DecimalPos.Unsigned.to_uint_nonnil.
    + simpl. unfold NilZero.string_of_uint.
      pose proof (DecimalPos.Unsigned.to_uint_nonnil q).
      by destruct (Pos.to_uint q).
    + pose proof (DecimalZ.of_to (Z.pos q)) as H. done.
Qed.

Lemma length_digits_pos (n : Z) : 0 ≤ n → (1 ≤ String.length (digits n))%nat.
Proof.
  intros (d & Hd & -> & _)%digits_nonneg.
  destruct d; simpl; done || lia.
Qed.

Lemma uint_of_string_zeros (k : nat) (d : Decimal.uint) :
  NilEmpty.uint_of_string (zeros k +:+ NilEmpty.string_of_uint d)
  = Some (Nat.iter k Decimal.D0 d).
Proof.
  induction k as [|k IH].
  - apply NilEmpty.usu.
  - rewrite zeros_S. simpl. by rewrite IH.
Qed.

Lemma of_uint_zeros (k : nat) (d : Decimal.uint) :
  Z.of_uint (Nat.iter k Decimal.D0 d) = Z.of_uint d.
Proof. induction k as [|k IH]; [done|]. simpl. exact IH. Qed.

(** Zeros before a numeral do not change what it reads as. *)
Lemma parseDecimal_zeros_digits (k : nat) (n : Z) :
  0 ≤ n → parseDecimal (zeros k +:+ digits n) = Some n.
Proof.
  intros Hn. destruct k as [|k].
  - apply parseDecimal_digits.
  - destruct (digits_nonneg n Hn) as (d & Hd & -> & Hval).
    unfold parseDecimal. rewrite zeros_S.
    change (NilZero.int_of_string
              (String "0" (zeros k) +:+ NilEmpty.string_of_uint d))
      with (option_map Decimal.Pos
              (NilEmpty.uint_of_string
                 (String "0" (zeros k) +:+ NilEmpty.string_of_uint d))).
    rewrite <- zeros_S, uint_of_string_zeros. simpl.
    f_equal. rewrite <- Hval. apply (of_uint_zeros (S k)).
Qed.

Lemma fraction_split (m : string) (f : nat) :
  (f + 1 ≤ String.length m)%nat →
  let j := (String.length m - f)%nat in
  String.substring 0 j m +:+ String.substring j f m = m
  ∧ (1 ≤ String.length (String.substring 0 j m))%nat
  ∧ String.length (String.substring j f m) = f.
Proof.
  intros Hm j. split_and!.
  - replace f with (String.length m - j)%nat at 1 by lia.
    apply substring_split. lia.
  - rewrite length_substring; lia.
  - apply length_substring. lia.
Qed.

Lemma fixedUnits_nonneg (x : Q) (f : nat) : 0 ≤ fixedUnits x f.
Proof.
  unfold fixedUnits. change 0 with (Qfloor 0). apply Qfloor_resp_le.
  assert (0 <= Qabs x * inject_Z (10 ^ Z.of_nat f))%Q.
  { apply Qmult_le_0_compat; [apply Qabs_nonneg|].
    change 0%Q with (inject_Z 0). rewrite <- Zle_Qle. lia. }
  lra.
Qed.

Lemma fixedUnits_nearest (x : Q) (f : nat) :
  (inject_Z (fixedUnits x f) - (1 # 2) <= Qabs x * inject_Z (10 ^ Z.of_nat f))%Q
  ∧ (Qabs x * inject_Z (10 ^ Z.of_nat f) < inject_Z (fixedUnits x f) + (1 # 2))%Q.
Proof.
  unfold fixedUnits.
  set (y := (Qabs x * inject_Z (10 ^ Z.of_nat f) + (1 # 2))%Q).
  pose proof (Qfloor_le y) as Hle.
  pose proof (Qlt_floor y) as Hlt.
  rewrite inject_Z_plus in Hlt. change (inject_Z 1) with 1%Q in Hlt.
  subst y. split; lra.
Qed.

Lemma toFixed_digits_shape (v : Q) (f : nat) :
  f ≠ 0%nat →
  ∃ a b : string,
    toFixed_digits v f
    = (if Qlt_le_dec v 0 then "-" else EmptyString) +:+ a +:+ "." +:+ b
    ∧ (1 ≤ String.length a)%nat
    ∧ String.length b = f
    ∧ parseDecimal (a +:+ b) = Some (fixedUnits v f).
Proof.
  intros Hf. unfold toFixed_digits.
  pose proof (fixedUnits_nonneg v f) as Hn.
  pose proof (length_digits_pos _ Hn) as Hlen.
  set (m := digits (fixedUnits v f)) in *.
  case_decide as Hf0; [done|].
  case_decide as Hk.
  - set (m' := zeros (f + 1 - String.length m) +:+ m).
    assert (Hm' : (f + 1 ≤ String.length m')%nat).
    { unfold m'. rewrite length_append, length_zeros. lia. }
    destruct (fraction_split m' f Hm') as (Hsplit & Ha & Hb).
    eexists _, _. split_and!; [reflexivity | done | done |].
    rewrite Hsplit. by apply parseDecimal_zeros_digits.
  - assert (Hm : (f + 1 ≤ String.length m)%nat) by lia.
    destruct (fraction_split m f Hm) as (Hsplit & Ha & Hb).
    eexists _, _. split_and!; [reflexivity | done | done |].
    rewrite Hsplit. apply parseDecimal_digits.
Qed.

(** Below [10^21] the digits of [toFixed] are written. *)
Lemma Number_toFixed_finite (x v : Q) (f : nat) :
  NumberValueQ x = Some v →
  (Qabs v < inject_Z (10 ^ 21))%Q →
  Number_toFixed x f = toFixed_digits v f.
Proof.
  intros Hv Hbound. unfold Number_toFixed. rewrite Hv.
  destruct (Qle_bool (inject_Z (10 ^ 21)) (Qabs v)) eqn:Hle; [|done].
  apply Qle_bool_iff in Hle. by apply Qle_not_lt in Hle.
Qed.

End Price.

(** X9. Let the price of a product be read as a double below [10^21] in
    absolute value. The price on its card is a dollar sign, a minus sign
    when the double is negative, at least one digit, a point and two
    digits. Read without the point, the digits are the number of cents
    nearest to the double, the larger one when it lies halfway between
    two. *)
Theorem cardPrice_two_decimals
    (L : list Product.t) (i : nat) (p : Product.t) (v : Q) :
  L !! i = Some p →
  NumberValueQ (Product.price p) = Some v →
  (Qabs v < inject_Z (10 ^ 21))%Q →
  ∃ (card : Card.t) (a b : string) (cents : Z),
    grid L !! i = Some card
    ∧ Card.cardPrice card
      = "$" +:+ (if Qlt_le_dec v 0 then "-" else EmptyString)
        +:+ a +:+ "." +:+ b
    ∧ (1 ≤ String.length a)%nat
    ∧ String.length b = 2%nat
    ∧ parseDecimal (a +:+ b) = Some cents
    ∧ 0 ≤ cents
    ∧ (inject_Z cents - (1 # 2) <= Qabs v * inject_Z 100)%Q
    ∧ (Qabs v * inject_Z 100 < inject_Z cents + (1 # 2))%Q.
Proof.
  intros Hp Hv Hbound.
  destruct (toFixed_digits_shape v 2) as (a & b & Hshape & Ha & Hb & Hread);
    [done|].
  eexists _, a, b, (fixedUnits v 2).
  split_and!.
  - unfold grid. by rewrite list_lookup_fmap, Hp.
  - simpl. by rewrite (Number_toFixed_finite _ v), Hshape.
  - done.
  - done.
  - done.
  - apply fixedUnits_nonneg.
  - apply (fixedUnits_nearest v 2).
  - apply (fixedUnits_nearest v 2).
Qed.

(** The numeral 1.005 is read as a double a little below it, and the card
    shows 100 cents. *)
Lemma cardPrice_two_decimals_witness :
  ∃ (card : Card.t) (a b : string),
    grid [Product.mk 12 "Lamp" (1005 # 1000) "A lamp" "home" "lamp.png"] !! 0%nat
    = Some card
    ∧ Card.cardPrice card = "$" +:+ a +:+ "." +:+ b
    ∧ String.length b = 2%nat
    ∧ parseDecimal (a +:+ b) = Some 100.
Proof.
  assert (Hv : NumberValueQ (1005 # 1000)
               = Some (1131529406376837 # 1125899906842624)) by (by vm_compute).
  assert (Hbound : (Qabs (1131529406376837 # 1125899906842624)
                    < inject_Z (10 ^ 21))%Q) by (by vm_compute).
  destruct (cardPrice_two_decimals
              [Product.mk 12 "Lamp" (1005 # 1000) "A lamp" "home" "lamp.png"]
              0%nat _ _ eq_refl Hv Hbound)
    as (card & a & b & cents & Hcard & Hprice & _ & Hb & Hread & _ & Hlo & Hhi).
  exists card, a, b. split_and!; [exact Hcard | exact Hprice | exact Hb |].
  rewrite Hread. f_equal.
  change (Qabs _ * inject_Z 100)%Q
    with ((1131529406376837 # 1125899906842624) * (100 # 1))%Q in Hlo, Hhi.
  assert (inject_Z cents < inject_Z 101)%Q as Hlt.
  { change (inject_Z 101) with (101 # 1)%Q. lra. }
  assert (inject_Z 99 < inject_Z cents)%Q as Hgt.
  { change (inject_Z 99) with (99 # 1)%Q. lra. }
  rewrite <- Zlt_Qlt in Hlt, Hgt. lia.
Defined.

(** ** When the render succeeds *)

(** X10. [Home] yields a page only when the upstream server answers with
    a status from 200 to 299; and when it answers with such a status and a
    body that reads as a list of products, [Home] yields the page rendered
    from that list. *)
Theorem Home_succeeds (w : World) :
  let request := Request.mk "https://fakestoreapi.com/products" GET no_store in
  (∀ page : Page.t,
     (Home w).1 = Ok page →
     ∃ response : Response.t,
       upstream w request = Ok response
       ∧ 200 ≤ Response.status response ≤ 299)
  ∧ (∀ (response : Response.t) (L : list Product.t),
       upstream w request = Ok response →
       200 ≤ Response.status response ≤ 299 →
       Response.json response = Ok L →
       (Home w).1 = Ok (render L)).
Proof.
  intros request. rewrite Home_run. cbn [fst]. fold request.
  unfold products_of, Response.ok. split.
  - intros page.
    destruct (upstream w request) as [response|e]; [|done].
    destruct (200 <=? Response.status response) eqn:Hlo;
      destruct (Response.status response <=? 299) eqn:Hhi; try done.
    intros _. apply Z.leb_le in Hlo, Hhi. by exists response.
  - intros response L -> [Hlo Hhi] Hjson.
    apply Z.leb_le in Hlo, Hhi. rewrite Hlo, Hhi. cbn [andb].
    by rewrite Hjson.
Qed.

Lemma Home_succeeds_witness :
  let L := [Product.mk 7 "Mug" (5 # 1) "A mug" "kitchen" "mug.png"] in
  let w := mkWorld (λ _, Ok (Response.mk 299 (Ok L))) ∅ [] in
  (Home w).1 = Ok (render L)
  ∧ ∃ response : Response.t,
      upstream w (Request.mk "https://fakestoreapi.com/products" GET no_store)
      = Ok response
      ∧ 200 ≤ Response.status response ≤ 299.
Proof.
  intros L w.
  assert (Hpage : (Home w).1 = Ok (render L)).
  { apply (proj2 (Home_succeeds w) (Response.mk 299 (Ok L)) L);
      [reflexivity | simpl; lia | reflexivity]. }
  split; [exact Hpage|].
  exact (proj1 (Home_succeeds w) (render L) Hpage).
Defined.

(** ** The payload of the script element *)

Example plpSchemaHtml_example :
  plpSchemaHtml [Product.mk 7 "Mug" (5 # 1) "A mug" "kitchen" "mug.png"]
  = "{" +:+ member "@context" (QuoteJSONString "https://schema.org") +:+ ","
    +:+ member "@type" (QuoteJSONString "CollectionPage") +:+ ","
    +:+ member "name" (QuoteJSONString "Discover Our Products") +:+ ","
    +:+ member "description" (QuoteJSONString "Browse a curated list of demo products rendered on a server-side Appscrip PLP implementation.") +:+ ","
    +:+ member "mainEntity"
          ("{" +:+ member "@type" (QuoteJSONString "ItemList") +:+ ","
           +:+ member "itemListElement"
                 ("[{" +:+ member "@type" (QuoteJSONString "ListItem") +:+ ","
                  +:+ member "position" "1" +:+ ","
                  +:+ member "url" (QuoteJSONString "https://example.com/products/7") +:+ ","
                  +:+ member "name" (QuoteJSONString "Mug") +:+ "}]")
           +:+ "}")
    +:+ "}".
Proof. reflexivity. Qed.

Example QuoteJSONString_escapes :
  QuoteJSONString (String "034" (String "092" (String "010" (String "001" "~<"))))
  = String "034"
      (String "092" (String "034"
         (String "092" (String "092"
            ("\n\u0001~<" +:+ String "034" EmptyString))))).
Proof. reflexivity. Qed.

Section Payload.

Lemma append_assoc (x y z : string) : (x +:+ y) +:+ z = x +:+ y +:+ z.
Proof.
  induction x as [|c x IH]; [done|].
  rewrite !append_cons. by rewrite IH.
Qed.

Lemma append_nil_r (x : string) : x +:+ EmptyString = x.
Proof. induction x as [|c x IH]; [done|]. rewrite append_cons. by rewrite IH. Qed.

Lemma occurs_in_refl (t : string) : occurs_in t t.
Proof. exists EmptyString, EmptyString. by rewrite append_nil_r. Qed.

Lemma occurs_in_app_l (t s x : string) : occurs_in t s → occurs_in t (x +:+ s).
Proof.
  intros (pre & post & ->). exists (x +:+ pre), post.
  by rewrite append_assoc.
Qed.

Lemma occurs_in_app_r (t s x : string) : occurs_in t s → occurs_in t (s +:+ x).
Proof.
  intros (pre & post & ->). exists pre, (post +:+ x).
  by rewrite !append_assoc.
Qed.

Lemma occurs_in_String (t s : string) (c : ascii) :
  occurs_in t s → occurs_in t (String c s).
Proof. apply (occurs_in_app_l t s (String c EmptyString)). Qed.

Lemma occurs_in_concat (sep t x : string) (l : list string) :
  x ∈ l → occurs_in t x → occurs_in t (String.concat sep l).
Proof.
  intros Hx Ht. induction l as [|y l IH]; [by apply elem_of_nil in Hx|].
  apply elem_of_cons in Hx as [->|Hx]; simpl.
  - destruct l; [done|]. by apply occurs_in_app_r.
  - destruct l as [|z l]; [by apply elem_of_nil in Hx|].
    by apply occurs_in_app_l, occurs_in_app_l, IH.
Qed.

Lemma QuoteJSONChars_app (a b : string) :
  QuoteJSONChars (a +:+ b) = QuoteJSONChars a +:+ QuoteJSONChars b.
Proof.
  induction a as [|c a IH]; [done|].
  rewrite append_cons. simpl. by rewrite IH, append_assoc.
Qed.

Lemma QuoteJSONChar_copied (c : ascii) :
  copied c = true → QuoteJSONChar c = String c EmptyString.
Proof. by destruct c as [[] [] [] [] [] [] [] []]. Qed.

Lemma QuoteJSONChars_copied (t : string) :
  all_copied t = true → QuoteJSONChars t = t.
Proof.
  induction t as [|c t IH]; simpl; [done|].
  intros [Hc Ht]%andb_true_iff.
  by rewrite QuoteJSONChar_copied, IH.
Qed.

Lemma occurs_in_QuoteJSONString (a t b : string) :
  all_copied t = true → occurs_in t (QuoteJSONString (a +:+ t +:+ b)).
Proof.
  intros Ht. unfold QuoteJSONString.
  rewrite !QuoteJSONChars_app, (QuoteJSONChars_copied t Ht).
  exists (String "034" (QuoteJSONChars a)),
         (QuoteJSONChars b +:+ String "034" EmptyString).
  by rewrite append_cons, !append_assoc.
Qed.

Lemma occurs_in_stringifyListItem (e : ListItem.t) (t : string) :
  occurs_in t (QuoteJSONString (ListItem.name e)) →
  occurs_in t (stringifyListItem e).
Proof.
  intros Ht. unfold stringifyListItem, SerializeJSONObject.
  apply occurs_in_app_l, occurs_in_app_r.
  eapply occurs_in_concat.
  - do 3 apply list_elem_of_further. apply list_elem_of_here.
  - unfold member. by do 2 apply occurs_in_app_l.
Qed.

Lemma occurs_in_JSON_stringify (schema : CollectionPage.t) (e : ListItem.t) (t : string) :
  e ∈ ItemList.itemListElement (CollectionPage.mainEntity schema) →
  occurs_in t (stringifyListItem e) →
  occurs_in t (JSON_stringify schema).
Proof.
  intros He Ht. unfold JSON_stringify, SerializeJSONObject.
  apply occurs_in_app_l, occurs_in_app_r.
  eapply occurs_in_concat.
  { do 4 apply list_elem_of_further. apply list_elem_of_here. }
  unfold member. do 2 apply occurs_in_app_l.
  unfold stringifyItemList, SerializeJSONObject.
  apply occurs_in_app_l, occurs_in_app_r.
  eapply occurs_in_concat.
  { apply list_elem_of_further, list_elem_of_here. }
  unfold member. do 2 apply occurs_in_app_l.
  unfold SerializeJSONArray.
  apply occurs_in_app_l, occurs_in_app_r.
  eapply occurs_in_concat; [|exact Ht].
  apply list_elem_of_fmap. by exists e.
Qed.

End Payload.

(** X11. Of the characters the model holds, those with codes below 256,
    [JSON.stringify] copies all but the quotation mark, the backslash and
    the control characters: a part of a title made of copied characters
    occurs unchanged in the text that is set as the content of the script
    element. The characters of markup are copied, so a closing script tag
    in a title is not escaped. *)
Theorem plpSchemaHtml_copies_title
    (L : list Product.t) (i : nat) (p : Product.t) (a t b : string) :
  L !! i = Some p →
  Product.title p = a +:+ t +:+ b →
  all_copied t = true →
  occurs_in t (plpSchemaHtml L).
Proof.
  intros Hp Htitle Ht. unfold plpSchemaHtml.
  apply (occurs_in_JSON_stringify _ (listItem i p)).
  - apply list_elem_of_lookup. exists i.
    by rewrite lookup_itemListElement, Hp.
  - apply occurs_in_stringifyListItem. simpl. rewrite Htitle.
    by apply occurs_in_QuoteJSONString.
Qed.

Lemma plpSchemaHtml_copies_title_witness :
  occurs_in "</script>"
    (plpSchemaHtml
       [Product.mk 7 "Mug </script> blue" (5 # 1) "A mug"
          "kitchen" "mug.png"]).
Proof.
  apply (plpSchemaHtml_copies_title _ 0%nat
           (Product.mk 7 "Mug </script> blue" (5 # 1) "A mug"
              "kitchen" "mug.png")
           "Mug " "</script>" " blue");
    reflexivity.
Defined.
